(** * Dashboard_Genie_Civil: the computational core of [Dashboard.py]

    The dashboard is a Streamlit page around the class
    [MomentForceCalculator].  This development embeds the formulas and
    loops of that class and relates them to the statements of the
    specification.

    Numbers.  Python [float]s are modelled by the real numbers of the
    Standard Library: arithmetic is exact, [math.sin] is [sin],
    [math.pi] is [PI].  Rounding of binary64 is outside the model,
    except for the conversion of the angle of 180 degrees, which is
    also carried out in binary64 ([radians_b64]) because the exact
    conversion gives a zero that the code does not give.
    A float division whose divisor may be zero is modelled by [pydiv],
    which raises [ZeroDivisionError] as Python does; a division by a
    non-zero literal is the plain division of [R]. *)

From Stdlib Require Import Reals Machin Lra Lia ZArith.
From Stdlib Require Import List String Bool Permutation.
From Stdlib Require Import PrimFloat SpecFloat FloatOps.
Import ListNotations.

Open Scope string_scope.
Open Scope list_scope.
Open Scope R_scope.

(** ** Exceptions *)

Inductive exn : Type :=
| ZeroDivisionError
| KeyError (key : string)
| UnboundLocalError (name : string).

Inductive result (A : Type) : Type :=
| Ok (a : A)
| Raise (e : exn).

Arguments Ok {A} a.
Arguments Raise {A} e.

Definition bind {A B : Type} (m : result A) (k : A -> result B) : result B :=
  match m with
  | Ok a => k a
  | Raise e => Raise e
  end.

Notation "x <- m ;; k" := (bind m (fun x => k))
  (at level 61, m at next level, right associativity).

(** [x / y] on floats. *)
Definition pydiv (x y : R) : result R :=
  if Req_dec_T y 0 then Raise ZeroDivisionError else Ok (x / y).

(** [d[k]] on a dict kept as an association list in insertion order. *)
Fixpoint getitem {V : Type} (d : list (string * V)) (k : string) : result V :=
  match d with
  | [] => Raise (KeyError k)
  | (k', v) :: d' => if String.eqb k' k then Ok v else getitem d' k
  end.

(** [sub in s] on strings. *)
Fixpoint contains (sub s : string) : bool :=
  String.prefix sub s ||
  match s with
  | EmptyString => false
  | String _ s' => contains sub s'
  end.

(** [math.radians]. *)
Definition radians (angle : R) : R := angle * (PI / 180).

(** [sum] of a list of floats, as the specification writes sums. *)
Definition Rsum (l : list R) : R := fold_right Rplus 0 l.

(** ** Data model *)

(** [self.materials], lines 72-79. *)
Definition materials : list (string * list (string * R)) :=
  [ ("Béton C25/30",    [("E", 30e9);  ("fc", 25e6);  ("weight", 2500)]);
    ("Béton C30/37",    [("E", 33e9);  ("fc", 30e6);  ("weight", 2500)]);
    ("Acier S235",      [("E", 210e9); ("fy", 235e6); ("weight", 7850)]);
    ("Acier S355",      [("E", 210e9); ("fy", 355e6); ("weight", 7850)]);
    ("Acier S500",      [("E", 210e9); ("fy", 500e6); ("weight", 7850)]);
    ("Bois Classe C24", [("E", 11e9);  ("fm", 24e6);  ("weight", 420)]) ].

(** The entries of [self.forces] are dicts tagged by ['type'].  Only the
    two forms of [create_force_input_section] create them, so they are
    the two variants below, each with the keys its form stores. *)

Module Ponctuelle.
Record t : Type := mk {
  valeur : R;      (* kN, as typed *)
  distance : R;    (* m *)
  angle : R;       (* degrees *)
  moment : R;      (* N.m *)
  force_perp : R   (* N *)
}.
End Ponctuelle.

Module Repartie.
Record t : Type := mk {
  valeur : R;        (* kN/m, as typed *)
  debut : R;         (* m *)
  fin : R;           (* m *)
  longueur : R;      (* m *)
  force_equiv : R;   (* kN *)
  moment_equiv : R   (* kN.m *)
}.
End Repartie.

Inductive force : Type :=
| ponctuelle (p : Ponctuelle.t)
| repartie (r : Repartie.t).

(** [f['valeur']]: the one key both variants carry. *)
Definition valeur (f : force) : R :=
  match f with
  | ponctuelle p => Ponctuelle.valeur p
  | repartie r => Repartie.valeur r
  end.

(** What the forms print with [st.success]. *)
Inductive message : Type :=
| success_force (moment_kNm : R)
| success_charge (force_equiv_kN : R).

(** ** [calculate_moment_force], lines 138-149 *)

Definition calculate_moment_force (force distance angle : R) : R * R :=
  let angle_rad := radians angle in
  let force_perp := force * sin angle_rad in
  let moment := force_perp * distance in
  (moment, force_perp).

(** ** [calculate_section_properties], lines 151-168 *)

Definition calculate_section_properties
    (width height : R) (section_type : string) : result (R * R * R) :=
  if String.eqb section_type "rectangulaire" then
    let area := width * height in
    let inertia := (width * height ^ 3) / 12 in
    module_inertie <- pydiv inertia (height / 2) ;;
    Ok (area, inertia, module_inertie)
  else if String.eqb section_type "circulaire" then
    let diameter := width in
    let area := (PI * diameter ^ 2) / 4 in
    let inertia := (PI * diameter ^ 4) / 64 in
    module_inertie <- pydiv inertia (diameter / 2) ;;
    Ok (area, inertia, module_inertie)
  else if String.eqb section_type "en I" then
    let area := width * height * 0.8 in
    let inertia := (width * height ^ 3) / 12 * 0.7 in
    module_inertie <- pydiv inertia (height / 2) ;;
    Ok (area, inertia, module_inertie)
  else Raise (UnboundLocalError "area").

(** ** The two forms of [create_force_input_section], lines 194-237

    Each takes the register and the submitted fields and gives the
    register afterwards and the messages shown. *)

Definition force_input_form (forces : list force) (submitted : bool)
    (force_value distance angle : R) : list force * list message :=
  if submitted then
    if Rgt_dec force_value 0 then
      let '(moment, force_perp) :=
        calculate_moment_force (force_value * 1000) distance angle in
      (forces ++ [ponctuelle
         {| Ponctuelle.valeur := force_value;
            Ponctuelle.distance := distance;
            Ponctuelle.angle := angle;
            Ponctuelle.moment := moment;
            Ponctuelle.force_perp := force_perp |}],
       [success_force (moment / 1000)])
    else (forces, [])
  else (forces, []).

Definition distributed_load_form (forces : list force) (submitted_load : bool)
    (load_value start_pos end_pos : R) : list force * list message :=
  if submitted_load then
    if Rgt_dec load_value 0 then
      if Rgt_dec end_pos start_pos then
        let length := end_pos - start_pos in
        let force_equiv := load_value * length in
        let moment_equiv := force_equiv * (start_pos + length / 2) in
        (forces ++ [repartie
           {| Repartie.valeur := load_value;
              Repartie.debut := start_pos;
              Repartie.fin := end_pos;
              Repartie.longueur := length;
              Repartie.force_equiv := force_equiv;
              Repartie.moment_equiv := moment_equiv |}],
         [success_charge force_equiv])
      else (forces, [])
    else (forces, [])
  else (forces, []).

(** ** [create_moment_calculation_section]: the totals, lines 280-289

    One loop updates both accumulators; the state of the loop is the
    pair [(total_moment, total_force)]. *)

Definition totals_step (acc : R * R) (f : force) : R * R :=
  let '(total_moment, total_force) := acc in
  match f with
  | ponctuelle p =>
      (total_moment + Ponctuelle.moment p,
       total_force + Ponctuelle.force_perp p)
  | repartie r =>
      (total_moment + Repartie.moment_equiv r * 1000,
       total_force + Repartie.force_equiv r * 1000)
  end.

Definition totals (forces : list force) : R * R :=
  fold_left totals_step forces (0, 0).

Definition total_moment (forces : list force) : R := fst (totals forces).
Definition total_force (forces : list force) : R := snd (totals forces).

(** ** The moment diagram, lines 302-317 *)

(** [np.linspace(start, stop, num)]: [arange(0, num) * step + start]
    with [step = (stop - start) / (num - 1)].  numpy then overwrites the
    last sample by [stop], which the formula already gives in exact
    arithmetic. *)
Definition linspace (start stop : R) (num : nat) : list R :=
  let step := (stop - start) / INR (num - 1) in
  map (fun i => INR i * step + start) (seq 0 num).

Definition x_points : list R := linspace 0 10 100.

Definition zeros_like (a : list R) : list R := map (fun _ => 0) a.

(** One turn of [for force in self.forces]: the inner loop walks
    [enumerate(x_points)] and updates [moment_points[i]] in place. *)
Definition diagram_step (moment_points : list R) (f : force) : list R :=
  match f with
  | ponctuelle p =>
      map (fun '(x, m) =>
             if Rge_dec x (Ponctuelle.distance p)
             then m + Ponctuelle.moment p / 1000
             else m)
          (combine x_points moment_points)
  | repartie r =>
      map (fun '(x, m) =>
             if Rge_dec x (Repartie.debut r) then
               if Rle_dec x (Repartie.fin r)
               then m + Repartie.valeur r * (x - Repartie.debut r) ^ 2 / 2
               else m + Repartie.moment_equiv r
             else m)
          (combine x_points moment_points)
  end.

Definition moment_points (forces : list force) : list R :=
  fold_left diagram_step forces (zeros_like x_points).

(** The trace handed to the plot: [x=x_points, y=moment_points]. *)
Definition moment_diagram (forces : list force) : list (R * R) :=
  combine x_points (moment_points forces).

(** ** The allowable stress, lines 357-360 *)

Definition contrainte_adm (material_props : string) : result R :=
  if contains "Acier" material_props then
    props <- getitem materials material_props ;;
    fy <- getitem props "fy" ;;
    Ok (fy / 1.15)
  else
    props <- getitem materials material_props ;;
    fc <- getitem props "fc" ;;
    Ok (fc / 1.5).

(** ** [create_structural_analysis]: the deflection, lines 434-447 *)

(** A [for] loop whose body may raise. *)
Fixpoint for_each {S T : Type} (body : S -> T -> result S)
    (l : list T) (s : S) : result S :=
  match l with
  | [] => Ok s
  | x :: l' => s' <- body s x ;; for_each body l' s'
  end.

Definition I_est : R := 0.3 * 0.5 ^ 3 / 12.

Definition fleche_step (longueur_poutre E : R)
    (fleche_max : R) (f : force) : result R :=
  match f with
  | ponctuelle p =>
      let P := Ponctuelle.valeur p * 1000 in
      fleche_force <- pydiv (P * longueur_poutre ^ 3) (48 * E * I_est) ;;
      Ok (fleche_max + fleche_force)
  | repartie _ => Ok fleche_max
  end.

Definition fleche_max (forces : list force) (longueur_poutre E : R)
    : result R :=
  for_each (fleche_step longueur_poutre E) forces 0.

(** The block around the loop: [E] is read from the catalog, and the
    loop runs only on a non-empty register and a positive length.  The
    result is the pair [(fleche_max, fleche_adm)] when it is shown. *)
Definition calcul_de_la_fleche (forces : list force)
    (longueur_poutre : R) (material_def : string) : result (option (R * R)) :=
  props <- getitem materials material_def ;;
  E <- getitem props "E" ;;
  match forces with
  | [] => Ok None
  | _ :: _ =>
      if Rgt_dec longueur_poutre 0 then
        fm <- fleche_max forces longueur_poutre E ;;
        Ok (Some (fm, longueur_poutre / 500))
      else Ok None
  end.

(** ** [create_structural_analysis]: the safety coefficient, lines 497-499 *)

(** A float that may be [float('inf')]. *)
Inductive xfloat : Type :=
| finite (x : R)
| inf.

(** [sum([f['valeur'] for f in self.forces])]: [sum] starts from [0] and
    adds from the left. *)
Definition charge_appliquee (forces : list force) : R :=
  fold_left Rplus (map valeur forces) 0.

Definition coeff_securite (charge_ultime : R) (forces : list force)
    : option xfloat :=
  match forces with
  | [] => None
  | _ :: _ =>
      let ca := charge_appliquee forces in
      Some (if Rgt_dec ca 0 then finite (charge_ultime / ca) else inf)
  end.

(** ** The specification's wording, for comparison with the code *)

(** Section 4.1 of the specification, [moment_diagram(span, samples)]:
    a point load contributes its moment from its position on; a
    distributed load contributes the quadratic ramp on its interval and
    its equivalent moment after it. *)
Definition spec_contribution (f : force) (x : R) : R :=
  match f with
  | ponctuelle p =>
      if Rge_dec x (Ponctuelle.distance p) then Ponctuelle.moment p else 0
  | repartie r =>
      if Rlt_dec x (Repartie.debut r) then 0
      else if Rle_dec x (Repartie.fin r)
           then Repartie.valeur r * (x - Repartie.debut r) ^ 2 / 2
           else Repartie.moment_equiv r
  end.

Definition spec_moment_diagram (forces : list force)
    (span : R) (samples : nat) : list (R * R) :=
  map (fun x => (x, Rsum (map (fun f => spec_contribution f x) forces)))
      (linspace 0 span samples).

(** Section 4.3 of the specification, [deflection_point_center] summed
    over the point loads, the inertia being an argument. *)
Definition spec_deflection (forces : list force) (span E inertia : R) : R :=
  Rsum (map (fun f =>
               match f with
               | ponctuelle p =>
                   (Ponctuelle.valeur p * 1000) * span ^ 3
                   / (48 * E * inertia)
               | repartie _ => 0
               end) forces).

(** The point-load entries and the distributed-load entries of a
    register, in register order. *)
Fixpoint ponctuelles (forces : list force) : list Ponctuelle.t :=
  match forces with
  | [] => []
  | ponctuelle p :: l => p :: ponctuelles l
  | repartie _ :: l => ponctuelles l
  end.

Fixpoint reparties (forces : list force) : list Repartie.t :=
  match forces with
  | [] => []
  | ponctuelle _ :: l => reparties l
  | repartie r :: l => r :: reparties l
  end.

(** What one entry adds to each accumulator of the totals loop. *)
Definition moment_term (f : force) : R :=
  match f with
  | ponctuelle p => Ponctuelle.moment p
  | repartie r => Repartie.moment_equiv r * 1000
  end.

Definition force_term (f : force) : R :=
  match f with
  | ponctuelle p => Ponctuelle.force_perp p
  | repartie r => Repartie.force_equiv r * 1000
  end.

(** What one entry adds to the sample of the diagram at position [x],
    read off the two inner loops of lines 305-317. *)
Definition apport (f : force) (x : R) : R :=
  match f with
  | ponctuelle p =>
      if Rge_dec x (Ponctuelle.distance p)
      then Ponctuelle.moment p / 1000
      else 0
  | repartie r =>
      if Rge_dec x (Repartie.debut r) then
        if Rle_dec x (Repartie.fin r)
        then Repartie.valeur r * (x - Repartie.debut r) ^ 2 / 2
        else Repartie.moment_equiv r
      else 0
  end.

(** ** [create_moment_calculation_section]: the stress check, lines 269-371

    The section stops on an empty register with a warning.  Otherwise
    the totals are computed, then the properties of the section, and
    the stress is checked only when [total_moment > 0]. *)

Inductive analyse : Type :=
| avertissement
| sans_contrainte
| contrainte (contrainte_max contrainte_adm : R) (admise : bool).

Definition analyse_des_contraintes (forces : list force)
    (width height : R) (section_type material_props : string)
    : result analyse :=
  match forces with
  | [] => Ok avertissement
  | _ :: _ =>
      let total_moment := total_moment forces in
      props <- calculate_section_properties width height section_type ;;
      let '(area, inertia, module_inertie) := props in
      if Rgt_dec total_moment 0 then
        contrainte_max <- pydiv total_moment module_inertie ;;
        c_adm <- contrainte_adm material_props ;;
        Ok (contrainte contrainte_max c_adm
              (if Rle_dec contrainte_max c_adm then true else false))
      else Ok sans_contrainte
  end.

(** ** [create_structural_analysis]: the verdict on stability, lines 504-509 *)

Inductive stabilite : Type :=
| EXCELLENTE
| BONNE
| INSUFFISANTE.

(** [c >= x] where [c] may be [float('inf')]. *)
Definition xge (c : xfloat) (x : R) : bool :=
  match c with
  | inf => true
  | finite y => if Rge_dec y x then true else false
  end.

Definition classer (coeff : xfloat) : stabilite :=
  if xge coeff 2.0 then EXCELLENTE
  else if xge coeff 1.5 then BONNE
  else INSUFFISANTE.

Definition analyse_de_stabilite (charge_ultime : R) (forces : list force)
    : option stabilite :=
  option_map classer (coeff_securite charge_ultime forces).

(** ** [create_structural_analysis]: the point of the interaction
    diagram, lines 552-554 *)

(** [f.get('moment', default)]: only the point loads have the key. *)
Definition get_moment (f : force) (default : R) : R :=
  match f with
  | ponctuelle p => Ponctuelle.moment p
  | repartie _ => default
  end.

Definition M_calc (forces : list force) : option R :=
  match forces with
  | [] => None
  | _ :: _ =>
      Some (fold_left Rplus (map (fun f => get_moment f 0) forces) 0 / 1000)
  end.

(** ** [run_dashboard]: the rows of the CSV export, lines 660-677 *)

Inductive cell : Type :=
| texte (s : string)
| nombre (x : R).

Definition export_row (f : force) : list (string * cell) :=
  match f with
  | ponctuelle p =>
      [ ("Type", texte "Ponctuelle");
        ("Valeur_kN", nombre (Ponctuelle.valeur p));
        ("Distance_m", nombre (Ponctuelle.distance p));
        ("Angle_deg", nombre (Ponctuelle.angle p));
        ("Moment_kNm", nombre (Ponctuelle.moment p / 1000)) ]
  | repartie r =>
      [ ("Type", texte "Répartie");
        ("Valeur_kN_m", nombre (Repartie.valeur r));
        ("Debut_m", nombre (Repartie.debut r));
        ("Fin_m", nombre (Repartie.fin r));
        ("Moment_equiv_kNm", nombre (Repartie.moment_equiv r)) ]
  end.

Definition force_data (forces : list force) : list (list (string * cell)) :=
  map export_row forces.

(** The moment written in a row of the export, under whichever of the
    two moment columns the row has. *)
Definition colonne_moment (row : list (string * cell)) : R :=
  match getitem row "Moment_kNm" with
  | Ok (nombre x) => x
  | _ =>
      match getitem row "Moment_equiv_kNm" with
      | Ok (nombre x) => x
      | _ => 0
      end
  end.

(** ** The angle in binary64

    [math.radians(x)] is the binary64 product [x * degToRad], where
    [degToRad] is the binary64 quotient of [math.pi] by [180.0].  The
    primitive floats compute both as Python does. *)






(** ** Invariants of the register *)

(** What the guard and the assignments of each form give to the entry
    it stores. *)
Definition bien_forme (f : force) : Prop :=
  match f with
  | ponctuelle p =>
      Ponctuelle.valeur p > 0
      /\ Ponctuelle.force_perp p
         = Ponctuelle.valeur p * 1000 * sin (radians (Ponctuelle.angle p))
      /\ Ponctuelle.moment p
         = Ponctuelle.force_perp p * Ponctuelle.distance p
  | repartie r =>
      Repartie.valeur r > 0
      /\ Repartie.fin r > Repartie.debut r
      /\ Repartie.longueur r = Repartie.fin r - Repartie.debut r
      /\ Repartie.force_equiv r = Repartie.valeur r * Repartie.longueur r
      /\ Repartie.moment_equiv r
         = Repartie.force_equiv r
           * (Repartie.debut r + Repartie.longueur r / 2)
  end.

(** The ranges of the input widgets, lines 184-219: distances and
    positions from [0], angles between [0] and [180]. *)
Definition dans_les_bornes (f : force) : Prop :=
  match f with
  | ponctuelle p =>
      0 <= Ponctuelle.distance p /\ 0 <= Ponctuelle.angle p <= 180
  | repartie r => 0 <= Repartie.debut r
  end.

(** * Properties *)

(** The guards of the code are decisions on reals; [case_Rdec] takes the
    first one in the goal and closes the branch that the context
    excludes. *)
Ltac case_Rdec :=
  match goal with
  | |- context [Rgt_dec ?a ?b] => destruct (Rgt_dec a b); try (exfalso; lra)
  | |- context [Rge_dec ?a ?b] => destruct (Rge_dec a b); try (exfalso; lra)
  | |- context [Rle_dec ?a ?b] => destruct (Rle_dec a b); try (exfalso; lra)
  | |- context [Rlt_dec ?a ?b] => destruct (Rlt_dec a b); try (exfalso; lra)
  end.

(** ** Sums *)

Lemma Rsum_cons (x : R) (l : list R) : Rsum (x :: l) = x + Rsum l.
Proof. reflexivity. Qed.

Lemma Rsum_app (l1 l2 : list R) : Rsum (l1 ++ l2) = Rsum l1 + Rsum l2.
Proof.
  induction l1 as [|x l1 IH]; simpl.
  - lra.
  - rewrite IH. lra.
Qed.


Lemma fold_left_Rplus (l : list R) (acc : R) :
  fold_left Rplus l acc = acc + Rsum l.
Proof.
  revert acc. induction l as [|x l IH]; intros acc; simpl.
  - lra.
  - rewrite IH. lra.
Qed.

(** ** The totals loop *)

Lemma totals_step_acc (l : list force) (m f : R) :
  fold_left totals_step l (m, f)
  = (m + Rsum (map moment_term l), f + Rsum (map force_term l)).
Proof.
  revert m f. induction l as [|e l IH]; intros m f; simpl.
  - f_equal; lra.
  - destruct e as [p|r]; rewrite IH; simpl; f_equal; lra.
Qed.

Lemma total_moment_terms (forces : list force) :
  total_moment forces = Rsum (map moment_term forces).
Proof.
  unfold total_moment, totals. rewrite totals_step_acc. simpl. lra.
Qed.

Lemma total_force_terms (forces : list force) :
  total_force forces = Rsum (map force_term forces).
Proof.
  unfold total_force, totals. rewrite totals_step_acc. simpl. lra.
Qed.

Lemma moment_terms_split (forces : list force) :
  Rsum (map moment_term forces)
  = Rsum (map Ponctuelle.moment (ponctuelles forces))
    + Rsum (map Repartie.moment_equiv (reparties forces)) * 1000.
Proof.
  induction forces as [|[p|r] l IH]; simpl; try rewrite IH; lra.
Qed.

Lemma force_terms_split (forces : list force) :
  Rsum (map force_term forces)
  = Rsum (map Ponctuelle.force_perp (ponctuelles forces))
    + Rsum (map Repartie.force_equiv (reparties forces)) * 1000.
Proof.
  induction forces as [|[p|r] l IH]; simpl; try rewrite IH; lra.
Qed.

(** C1. For every register, [total_moment] is the sum of the stored
    moments of the point loads plus the sum of the equivalent moments
    of the distributed loads multiplied by 1000, and [total_force] is
    the sum of the perpendicular forces of the point loads plus the sum
    of the equivalent forces of the distributed loads multiplied by
    1000.  The stored fields of a distributed load carry no factor: the
    conversion is in the summation only. *)
Theorem totals_unit_conversion (forces : list force) :
  total_moment forces
  = Rsum (map Ponctuelle.moment (ponctuelles forces))
    + Rsum (map Repartie.moment_equiv (reparties forces)) * 1000
  /\ total_force forces
     = Rsum (map Ponctuelle.force_perp (ponctuelles forces))
       + Rsum (map Repartie.force_equiv (reparties forces)) * 1000.
Proof.
  split.
  - rewrite total_moment_terms. apply moment_terms_split.
  - rewrite total_force_terms. apply force_terms_split.
Qed.



(** ** Point loads *)


Lemma radians_90 : radians 90 = PI / 2.
Proof. unfold radians. lra. Qed.








(** The entry stored by the point-load form: the typed value is in kN
    and is handed to [calculate_moment_force] in N, so the stored moment
    and force are in N.m and N. *)
Lemma force_input_form_valid
    (forces : list force) (force_value distance angle : R) :
  force_value > 0 ->
  force_input_form forces true force_value distance angle
  = (forces ++ [ponctuelle
       (Ponctuelle.mk force_value distance angle
          (force_value * 1000 * sin (radians angle) * distance)
          (force_value * 1000 * sin (radians angle)))],
     [success_force
        (force_value * 1000 * sin (radians angle) * distance / 1000)]).
Proof.
  intros H. unfold force_input_form, calculate_moment_force.
  case_Rdec. reflexivity.
Qed.

(** The same for a vertical force. *)
Lemma force_input_form_90 (forces : list force) (force_value distance : R) :
  force_value > 0 ->
  force_input_form forces true force_value distance 90
  = (forces ++ [ponctuelle
       (Ponctuelle.mk force_value distance 90
          (force_value * 1000 * 1 * distance) (force_value * 1000 * 1))],
     [success_force (force_value * 1000 * 1 * distance / 1000)]).
Proof.
  intros H. rewrite force_input_form_valid by exact H.
  rewrite radians_90, sin_PI2. reflexivity.
Qed.

(** ** Distributed loads *)

(** C5. For an intensity [> 0] and [end > start], the distributed-load
    form stores [force_equiv = intensity * (end - start)] and
    [moment_equiv = force_equiv * (start + (end - start) / 2)], and the
    centroid [start + (end - start) / 2] is strictly between [start]
    and [end]. *)
Theorem distributed_load_equivalents
    (forces : list force) (intensity start_pos end_pos : R) :
  intensity > 0 -> end_pos > start_pos ->
  distributed_load_form forces true intensity start_pos end_pos
  = (forces ++ [repartie
       (Repartie.mk intensity start_pos end_pos (end_pos - start_pos)
          (intensity * (end_pos - start_pos))
          (intensity * (end_pos - start_pos)
           * (start_pos + (end_pos - start_pos) / 2)))],
     [success_charge (intensity * (end_pos - start_pos))])
  /\ start_pos < start_pos + (end_pos - start_pos) / 2 < end_pos.
Proof.
  intros Hq He. unfold distributed_load_form.
  do 2 case_Rdec. split; [reflexivity | lra].
Qed.

Lemma distributed_load_equivalents_witness :
  distributed_load_form [] true 5 0 4
  = ([] ++ [repartie
       (Repartie.mk 5 0 4 (4 - 0) (5 * (4 - 0))
          (5 * (4 - 0) * (0 + (4 - 0) / 2)))],
     [success_charge (5 * (4 - 0))])
  /\ 0 < 0 + (4 - 0) / 2 < 4.
Proof.
  apply (distributed_load_equivalents [] 5 0 4); lra.
Defined.

(** ** Submissions that the forms do not accept *)

(** C3, as the specification states it, fails: a distributed load with
    [end = start] is submitted and no message is shown. *)
Lemma invalid_submission_no_message :
  ~ (exists msg : message,
        In msg (snd (distributed_load_form [] true 5 4 4))).
Proof.
  unfold distributed_load_form.
  do 2 case_Rdec. intros [msg []].
Qed.

(** C3, amended.  A point load with magnitude [<= 0], and a distributed
    load with intensity [<= 0] or [end <= start], is skipped by the
    guard of its form: the register is returned as it was and nothing is
    shown, neither an error nor a message. *)
Theorem invalid_submission_ignored
    (forces : list force) (submitted : bool)
    (force_value distance angle load_value start_pos end_pos : R) :
  force_value <= 0 ->
  load_value <= 0 \/ end_pos <= start_pos ->
  force_input_form forces submitted force_value distance angle
  = (forces, [])
  /\ distributed_load_form forces submitted load_value start_pos end_pos
     = (forces, []).
Proof.
  intros Hf Hl. unfold force_input_form, distributed_load_form.
  destruct submitted; [|split; reflexivity].
  split.
  - case_Rdec. reflexivity.
  - destruct Hl; repeat case_Rdec; reflexivity.
Qed.

Lemma invalid_submission_ignored_witness :
  force_input_form [] true 0 2 90 = ([], [])
  /\ distributed_load_form [] true 5 4 4 = ([], []).
Proof.
  apply (invalid_submission_ignored [] true 0 2 90 5 4 4).
  - lra.
  - right. lra.
Defined.

(** ** Sections *)

Lemma pydiv_nonzero (x y : R) : y <> 0 -> pydiv x y = Ok (x / y).
Proof.
  intros H. unfold pydiv. destruct (Req_dec_T y 0); [contradiction|reflexivity].
Qed.

(** C8. For a width [> 0] and a height [> 0],
    [calculate_section_properties] returns, for a rectangle,
    [w * h], [w * h^3 / 12] and that inertia over [h / 2]; for a circle
    of diameter [w] (the height is not read), [PI * w^2 / 4],
    [PI * w^4 / 64] and that inertia over [w / 2]; for the I section,
    [0.8 * w * h], [0.7 * w * h^3 / 12] and that inertia over [h / 2]. *)
Theorem calculate_section_properties_spec (w h : R) :
  w > 0 -> h > 0 ->
  calculate_section_properties w h "rectangulaire"
  = Ok (w * h, w * h ^ 3 / 12, (w * h ^ 3 / 12) / (h / 2))
  /\ (forall h' : R,
        calculate_section_properties w h' "circulaire"
        = Ok (PI * w ^ 2 / 4, PI * w ^ 4 / 64, (PI * w ^ 4 / 64) / (w / 2)))
  /\ calculate_section_properties w h "en I"
     = Ok (0.8 * w * h, 0.7 * w * h ^ 3 / 12,
           (0.7 * w * h ^ 3 / 12) / (h / 2)).
Proof.
  intros Hw Hh. unfold calculate_section_properties. cbn [String.eqb Ascii.eqb Bool.eqb].
  repeat split; intros.
  - rewrite pydiv_nonzero by lra. reflexivity.
  - rewrite pydiv_nonzero by lra. reflexivity.
  - rewrite pydiv_nonzero by lra. cbn [bind].
    do 2 f_equal; [f_equal|]; lra.
Qed.

Lemma calculate_section_properties_spec_witness :
  calculate_section_properties 0.3 0.5 "rectangulaire"
  = Ok (0.3 * 0.5, 0.3 * 0.5 ^ 3 / 12, (0.3 * 0.5 ^ 3 / 12) / (0.5 / 2))
  /\ (forall h' : R,
        calculate_section_properties 0.3 h' "circulaire"
        = Ok (PI * 0.3 ^ 2 / 4, PI * 0.3 ^ 4 / 64,
              (PI * 0.3 ^ 4 / 64) / (0.3 / 2)))
  /\ calculate_section_properties 0.3 0.5 "en I"
     = Ok (0.8 * 0.3 * 0.5, 0.7 * 0.3 * 0.5 ^ 3 / 12,
           (0.7 * 0.3 * 0.5 ^ 3 / 12) / (0.5 / 2)).
Proof.
  apply (calculate_section_properties_spec 0.3 0.5); lra.
Defined.

(** ** Materials *)

(** What [contrainte_adm] gives on the steels and the concretes of the
    catalog. *)
Lemma contrainte_adm_acier_beton :
  contrainte_adm "Acier S235" = Ok (235e6 / 1.15)
  /\ contrainte_adm "Acier S355" = Ok (355e6 / 1.15)
  /\ contrainte_adm "Acier S500" = Ok (500e6 / 1.15)
  /\ contrainte_adm "Béton C25/30" = Ok (25e6 / 1.5)
  /\ contrainte_adm "Béton C30/37" = Ok (30e6 / 1.5).
Proof. repeat split; reflexivity. Qed.

(** The branch is chosen by the name alone: the wood is sent to the
    branch of the concretes. *)
Lemma contains_Acier_catalog :
  map (fun m => contains "Acier" (fst m)) materials
  = [false; false; true; true; true; false].
Proof. reflexivity. Qed.

(** C2, at the wood of the catalog.  Its name does not contain "Acier",
    so the other branch reads the key "fc"; the entry of the wood has
    the keys "E", "fm" and "weight" only, and the lookup raises. *)
Theorem contrainte_adm_bois :
  contrainte_adm "Bois Classe C24" = Raise (KeyError "fc").
Proof. reflexivity. Qed.

(** ** The moment diagram *)

Lemma combine_map_r {A B : Type} (g : A -> B) (xs : list A) :
  combine xs (map g xs) = map (fun x => (x, g x)) xs.
Proof.
  induction xs as [|x xs IH]; simpl; [reflexivity | now rewrite IH].
Qed.

Lemma diagram_step_apport (moment_points : list R) (f : force) :
  diagram_step moment_points f
  = map (fun xm => snd xm + apport f (fst xm)) (combine x_points moment_points).
Proof.
  unfold diagram_step, apport.
  destruct f as [p|r]; apply map_ext; intros [x m]; cbn [fst snd].
  - destruct (Rge_dec x (Ponctuelle.distance p)); lra.
  - destruct (Rge_dec x (Repartie.debut r));
      [destruct (Rle_dec x (Repartie.fin r))|]; lra.
Qed.

Lemma diagram_fold (forces : list force) (g : R -> R) :
  fold_left diagram_step forces (map g x_points)
  = map (fun x => g x + Rsum (map (fun f => apport f x) forces)) x_points.
Proof.
  revert g. induction forces as [|f forces IH]; intros g; cbn [fold_left].
  - apply map_ext. intros x. cbn [map Rsum fold_right]. lra.
  - rewrite diagram_step_apport, combine_map_r, map_map. cbn [fst snd].
    rewrite (IH (fun x => g x + apport f x)).
    apply map_ext. intros x. cbn [map]. rewrite Rsum_cons. lra.
Qed.

Lemma moment_points_apport (forces : list force) :
  moment_points forces
  = map (fun x => Rsum (map (fun f => apport f x) forces)) x_points.
Proof.
  unfold moment_points, zeros_like. rewrite diagram_fold.
  apply map_ext. intros x. lra.
Qed.

Lemma x_points_samples :
  x_points = map (fun i => INR i * (10 / 99)) (seq 0 100).
Proof.
  unfold x_points, linspace. apply map_ext. intros i.
  change (100 - 1)%nat with 99%nat.
  rewrite (INR_IZR_INZ 99). change (Z.of_nat 99) with 99%Z. lra.
Qed.

Lemma moment_diagram_apport (forces : list force) :
  moment_diagram forces
  = map (fun i => (INR i * (10 / 99),
                   Rsum (map (fun f => apport f (INR i * (10 / 99))) forces)))
        (seq 0 100).
Proof.
  unfold moment_diagram. rewrite moment_points_apport, combine_map_r.
  rewrite x_points_samples, map_map. reflexivity.
Qed.

(** The cases of [apport], on an entry whose interval is not reversed. *)
Lemma apport_cases :
  (forall p x, x >= Ponctuelle.distance p ->
     apport (ponctuelle p) x = Ponctuelle.moment p / 1000)
  /\ (forall p x, x < Ponctuelle.distance p -> apport (ponctuelle p) x = 0)
  /\ (forall r x, Repartie.debut r <= x <= Repartie.fin r ->
        apport (repartie r) x
        = Repartie.valeur r * (x - Repartie.debut r) ^ 2 / 2)
  /\ (forall r x, Repartie.debut r <= Repartie.fin r -> x > Repartie.fin r ->
        apport (repartie r) x = Repartie.moment_equiv r)
  /\ (forall r x, x < Repartie.debut r -> apport (repartie r) x = 0).
Proof.
  unfold apport. repeat split; intros; repeat case_Rdec; reflexivity.
Qed.

(** C6, as the specification states it, fails.  With a span of 10 and
    100 samples, a point load of 1 kN at 1 m adds 1 (kN.m) to the last
    sample, not its stored moment 1000 (N.m); and with a span of 6 and
    50 samples the diagram of the code still has its 100 samples. *)
Lemma moment_diagram_not_spec :
  moment_diagram (fst (force_input_form [] true 1 1 90))
  <> spec_moment_diagram (fst (force_input_form [] true 1 1 90)) 10 100
  /\ moment_diagram [] <> spec_moment_diagram [] 6 50.
Proof.
  split.
  - rewrite force_input_form_90 by lra. cbn [fst app].
    rewrite moment_diagram_apport.
    unfold spec_moment_diagram, linspace. rewrite map_map.
    intros H. apply (f_equal (fun l => nth_error l 99)) in H.
    rewrite !nth_error_map in H.
    change (nth_error (seq 0 100) 99) with (Some 99%nat) in H.
    cbn [option_map map Rsum fold_right apport spec_contribution
         Ponctuelle.distance Ponctuelle.moment] in H.
    change (100 - 1)%nat with 99%nat in H.
    rewrite (INR_IZR_INZ 99) in H. change (Z.of_nat 99) with 99%Z in H.
    injection H as _ H. revert H. do 2 case_Rdec. lra.
  - intros H. apply (f_equal (@List.length _)) in H.
    rewrite moment_diagram_apport in H.
    unfold spec_moment_diagram, linspace in H.
    rewrite !length_map, !length_seq in H. discriminate H.
Qed.

(** C6, amended.  The diagram has the 100 evenly spaced positions
    [i * 10 / 99] of [[0, 10]], whatever the span of the beam; the
    moment at a position [x] is the sum over the register of [apport]:
    a point load at distance [d] adds its stored moment divided by 1000
    when [x >= d], and a distributed load adds
    [intensity * (x - start)^2 / 2] when [start <= x <= end] and its
    equivalent moment when [x > end]. *)
Theorem moment_diagram_samples (forces : list force) :
  moment_diagram forces
  = map (fun i => (INR i * (10 / 99),
                   Rsum (map (fun f => apport f (INR i * (10 / 99))) forces)))
        (seq 0 100).
Proof. apply moment_diagram_apport. Qed.

(** ** Deflection *)

Lemma I_est_value : I_est = 0.003125.
Proof. unfold I_est. lra. Qed.

Lemma fleche_loop_acc (forces : list force) (longueur_poutre E acc : R) :
  E > 0 ->
  for_each (fleche_step longueur_poutre E) forces acc
  = Ok (acc + Rsum (map (fun p => Ponctuelle.valeur p * 1000
                                  * longueur_poutre ^ 3 / (48 * E * I_est))
                        (ponctuelles forces))).
Proof.
  intros HE. revert acc.
  induction forces as [|[p|r] forces IH]; intros acc; cbn [for_each].
  - cbn [ponctuelles map Rsum fold_right]. f_equal. lra.
  - unfold fleche_step at 1. rewrite pydiv_nonzero.
    + cbn [bind]. rewrite IH. cbn [ponctuelles map]. rewrite Rsum_cons.
      f_equal. lra.
    + rewrite I_est_value. lra.
  - cbn [fleche_step bind ponctuelles]. apply IH.
Qed.

(** Every material of the catalog has a positive modulus, so the loop
    never divides by zero on the page. *)
Lemma materials_E_positive (name : string) (props : list (string * R)) :
  In (name, props) materials ->
  exists E : R, getitem props "E" = Ok E /\ E > 0.
Proof.
  unfold materials. cbn [In].
  intros H; repeat (destruct H as [H|H]); try contradiction;
    injection H as _ <-; cbn [getitem String.eqb Ascii.eqb Bool.eqb];
    eexists; (split; [reflexivity | lra]).
Qed.

(** C7, as the specification states it, fails: the inertia is not an
    argument of the computation.  For one point load of 1 kN, a beam of
    6 m and a steel, the deflection of the code is not the value of the
    formula at an inertia of 1. *)
Lemma fleche_max_not_spec :
  fleche_max (fst (force_input_form [] true 1 1 90)) 6 210e9
  <> Ok (spec_deflection (fst (force_input_form [] true 1 1 90)) 6 210e9 1).
Proof.
  rewrite force_input_form_90 by lra. cbn [fst app].
  unfold fleche_max. rewrite fleche_loop_acc by lra.
  unfold spec_deflection.
  cbn [ponctuelles map Rsum fold_right Ponctuelle.valeur].
  rewrite I_est_value. intros H. injection H as H. lra.
Qed.

(** C7, amended.  For every register, span and modulus [E > 0], the
    deflection computed by the loop is the sum over the point loads
    only of [P * span^3 / (48 * E * I_est)], where [P] is the typed
    magnitude times 1000 and [I_est = 0.3 * 0.5^3 / 12 = 0.003125] is
    the constant of the code, whatever the section; the distributed
    loads add nothing. *)
Theorem fleche_max_point_loads (forces : list force) (longueur_poutre E : R) :
  E > 0 ->
  fleche_max forces longueur_poutre E
  = Ok (Rsum (map (fun p => Ponctuelle.valeur p * 1000
                            * longueur_poutre ^ 3 / (48 * E * I_est))
                  (ponctuelles forces)))
  /\ I_est = 0.003125.
Proof.
  intros HE. split; [|apply I_est_value].
  unfold fleche_max. rewrite fleche_loop_acc by exact HE. f_equal. lra.
Qed.

Lemma fleche_max_point_loads_witness :
  let forces := [ponctuelle (Ponctuelle.mk 10 2 90 20000 10000);
                 repartie (Repartie.mk 5 0 4 4 20 40)] in
  fleche_max forces 6 210e9
  = Ok (Rsum (map (fun p => Ponctuelle.valeur p * 1000
                            * 6 ^ 3 / (48 * 210e9 * I_est))
                  (ponctuelles forces)))
  /\ I_est = 0.003125.
Proof.
  intros forces. apply (fleche_max_point_loads forces 6 210e9). lra.
Defined.

(** ** Safety coefficient *)

Lemma valeur_split (forces : list force) :
  Rsum (map valeur forces)
  = Rsum (map Ponctuelle.valeur (ponctuelles forces))
    + Rsum (map Repartie.valeur (reparties forces)).
Proof.
  induction forces as [|[p|r] l IH]; simpl; try rewrite IH; lra.
Qed.

Lemma charge_appliquee_sum (forces : list force) :
  charge_appliquee forces = Rsum (map valeur forces).
Proof.
  unfold charge_appliquee. rewrite fold_left_Rplus. lra.
Qed.

(** C10. On a non-empty register, the applied load of the safety
    coefficient is the sum of the typed values of the entries: the
    magnitudes (kN) of the point loads and the intensities (kN/m) of
    the distributed loads, added as they are; the equivalent force of a
    distributed load is not read. *)
Theorem charge_appliquee_raw_values
    (forces : list force) (charge_ultime : R) :
  forces <> [] ->
  charge_appliquee forces
  = Rsum (map Ponctuelle.valeur (ponctuelles forces))
    + Rsum (map Repartie.valeur (reparties forces))
  /\ coeff_securite charge_ultime forces
     = Some (if Rgt_dec (charge_appliquee forces) 0
             then finite (charge_ultime / charge_appliquee forces)
             else inf).
Proof.
  intros Hne. split.
  - rewrite charge_appliquee_sum. apply valeur_split.
  - destruct forces as [|f l]; [contradiction | reflexivity].
Qed.

Lemma charge_appliquee_raw_values_witness :
  let forces := [ponctuelle (Ponctuelle.mk 10 2 90 20000 10000);
                 repartie (Repartie.mk 5 0 4 4 20 40)] in
  charge_appliquee forces
  = Rsum (map Ponctuelle.valeur (ponctuelles forces))
    + Rsum (map Repartie.valeur (reparties forces))
  /\ coeff_securite 50 forces
     = Some (if Rgt_dec (charge_appliquee forces) 0
             then finite (50 / charge_appliquee forces)
             else inf).
Proof.
  intros forces. apply (charge_appliquee_raw_values forces 50).
  discriminate.
Defined.

(** The same register as a number: 10 kN and 5 kN/m over 4 m give an
    applied load of 15, not 10 + 20. *)
Example charge_appliquee_example :
  charge_appliquee [ponctuelle (Ponctuelle.mk 10 2 90 20000 10000);
                    repartie (Repartie.mk 5 0 4 4 20 40)] = 15.
Proof. rewrite charge_appliquee_sum. simpl. lra. Qed.

(** * Further properties of the code *)

(** ** The forms and the register *)

(** X1. Whatever is submitted, each form only appends: the register
    afterwards is the register before followed by at most one entry,
    and an entry is added exactly when a message is shown. *)
Theorem forms_append_only
    (forces : list force) (submitted : bool)
    (force_value distance angle load_value start_pos end_pos : R) :
  (exists added msgs,
      force_input_form forces submitted force_value distance angle
      = (forces ++ added, msgs)
      /\ List.length added = List.length msgs
      /\ (List.length msgs <= 1)%nat)
  /\ (exists added msgs,
        distributed_load_form forces submitted load_value start_pos end_pos
        = (forces ++ added, msgs)
        /\ List.length added = List.length msgs
        /\ (List.length msgs <= 1)%nat).
Proof.
  unfold force_input_form, distributed_load_form, calculate_moment_force.
  split.
  - destruct submitted; [destruct (Rgt_dec force_value 0)|];
      (eexists _, _; split; [reflexivity | simpl; lia])
      || (exists [], []; rewrite app_nil_r; simpl; auto).
  - destruct submitted;
      [destruct (Rgt_dec load_value 0);
       [destruct (Rgt_dec end_pos start_pos)|]|];
      (eexists _, _; split; [reflexivity | simpl; lia])
      || (exists [], []; rewrite app_nil_r; simpl; auto).
Qed.

(** X2. The forms keep the register well formed: if every entry has a
    positive value and stored fields that agree with its typed fields
    ([bien_forme]), so has every entry after a submission, accepted or
    not. *)
Theorem forms_preserve_bien_forme
    (forces : list force) (submitted : bool)
    (force_value distance angle load_value start_pos end_pos : R) :
  Forall bien_forme forces ->
  Forall bien_forme
    (fst (force_input_form forces submitted force_value distance angle))
  /\ Forall bien_forme
       (fst (distributed_load_form forces submitted
               load_value start_pos end_pos)).
Proof.
  intros H.
  unfold force_input_form, distributed_load_form, calculate_moment_force.
  split.
  - destruct submitted; [destruct (Rgt_dec force_value 0)|]; cbn [fst];
      try exact H.
    apply Forall_app. split; [exact H|].
    constructor; [|constructor]. cbn. repeat split; lra.
  - destruct submitted;
      [destruct (Rgt_dec load_value 0);
       [destruct (Rgt_dec end_pos start_pos)|]|]; cbn [fst]; try exact H.
    apply Forall_app. split; [exact H|].
    constructor; [|constructor]. cbn. repeat split; lra.
Qed.

Lemma forms_preserve_bien_forme_witness :
  Forall bien_forme (fst (force_input_form [] true 10 2 90))
  /\ Forall bien_forme (fst (distributed_load_form [] true 5 0 4)).
Proof.
  apply (forms_preserve_bien_forme [] true 10 2 90 5 0 4).
  constructor.
Defined.

(** X3. An accepted submission adds its own terms to the totals: a
    point load of [F] kN at distance [d] and angle [a] adds
    [1000 * F * sin (radians a)] to the total force and that times [d]
    to the total moment; a distributed load of [q] kN/m on [[s, e]] adds
    [1000 * q * (e - s)] to the total force and that times the centroid
    [s + (e - s) / 2] to the total moment. *)
Theorem totals_after_submission
    (forces : list force)
    (force_value distance angle load_value start_pos end_pos : R) :
  force_value > 0 -> load_value > 0 -> end_pos > start_pos ->
  let forces1 := fst (force_input_form forces true force_value distance angle) in
  let forces2 :=
    fst (distributed_load_form forces true load_value start_pos end_pos) in
  total_force forces1
  = total_force forces + 1000 * force_value * sin (radians angle)
  /\ total_moment forces1
     = total_moment forces
       + 1000 * force_value * sin (radians angle) * distance
  /\ total_force forces2
     = total_force forces + 1000 * load_value * (end_pos - start_pos)
  /\ total_moment forces2
     = total_moment forces
       + 1000 * load_value * (end_pos - start_pos)
         * (start_pos + (end_pos - start_pos) / 2).
Proof.
  intros Hf Hq He forces1 forces2. subst forces1 forces2.
  rewrite force_input_form_valid by exact Hf.
  unfold distributed_load_form. do 2 case_Rdec. cbn [fst].
  rewrite !total_force_terms, !total_moment_terms, !map_app, !Rsum_app.
  cbn [map Rsum fold_right moment_term force_term
       Ponctuelle.moment Ponctuelle.force_perp
       Repartie.moment_equiv Repartie.force_equiv].
  repeat split; lra.
Qed.

Lemma totals_after_submission_witness :
  let forces1 := fst (force_input_form [] true 10 2 90) in
  let forces2 := fst (distributed_load_form [] true 5 0 4) in
  total_force forces1 = total_force [] + 1000 * 10 * sin (radians 90)
  /\ total_moment forces1
     = total_moment [] + 1000 * 10 * sin (radians 90) * 2
  /\ total_force forces2 = total_force [] + 1000 * 5 * (4 - 0)
  /\ total_moment forces2
     = total_moment [] + 1000 * 5 * (4 - 0) * (0 + (4 - 0) / 2).
Proof.
  apply (totals_after_submission [] 10 2 90 5 0 4); lra.
Defined.

(** ** Signs *)

Lemma sin_radians_nonneg (angle : R) :
  0 <= angle <= 180 -> 0 <= sin (radians angle).
Proof.
  intros [H0 H180]. pose proof PI_RGT_0 as HPI.
  apply sin_ge_0; unfold radians; nra.
Qed.

Lemma bien_forme_terms_nonneg (f : force) :
  bien_forme f -> dans_les_bornes f ->
  0 <= force_term f /\ 0 <= moment_term f.
Proof.
  destruct f as [p|r]; cbn.
  - intros (Hv & Hf & Hm) (Hd & Ha).
    pose proof (sin_radians_nonneg _ Ha) as Hs.
    assert (0 <= Ponctuelle.force_perp p) by (rewrite Hf; nra).
    split; [assumption | rewrite Hm; nra].
  - intros (Hv & He & Hl & Hf & Hm) Hd.
    assert (0 < Repartie.longueur r) by lra.
    assert (0 < Repartie.force_equiv r) by (rewrite Hf; nra).
    split; [lra|]. rewrite Hm. nra.
Qed.

Lemma Rsum_nonneg (l : list R) : Forall (Rle 0) l -> 0 <= Rsum l.
Proof.
  induction 1 as [|x l Hx _ IH]; simpl; lra.
Qed.

(** X4. On a well-formed register whose entries are within the ranges
    of the input widgets (distances and starts from 0, angles in
    [[0, 180]]), the total force and the total moment are never
    negative. *)
Theorem totals_nonneg (forces : list force) :
  Forall bien_forme forces -> Forall dans_les_bornes forces ->
  0 <= total_force forces /\ 0 <= total_moment forces.
Proof.
  intros Hb Hr. rewrite total_force_terms, total_moment_terms.
  split; apply Rsum_nonneg, Forall_map;
    rewrite Forall_forall in *; intros f Hf;
    apply bien_forme_terms_nonneg; auto.
Qed.

Lemma registre_exemple_bien_forme :
  Forall bien_forme [ponctuelle (Ponctuelle.mk 10 2 90 20000 10000);
                     repartie (Repartie.mk 5 0 4 4 20 40)].
Proof.
  repeat constructor; cbn; try rewrite radians_90, sin_PI2; lra.
Defined.

Lemma registre_exemple_dans_les_bornes :
  Forall dans_les_bornes [ponctuelle (Ponctuelle.mk 10 2 90 20000 10000);
                          repartie (Repartie.mk 5 0 4 4 20 40)].
Proof.
  repeat constructor; cbn; lra.
Defined.

Lemma totals_nonneg_witness :
  let forces := [ponctuelle (Ponctuelle.mk 10 2 90 20000 10000);
                 repartie (Repartie.mk 5 0 4 4 20 40)] in
  0 <= total_force forces /\ 0 <= total_moment forces.
Proof.
  intros forces. apply (totals_nonneg forces).
  - apply registre_exemple_bien_forme.
  - apply registre_exemple_dans_les_bornes.
Defined.

(** ** The moment diagram and the totals *)

Lemma moment_points_nth (forces : list force) (i : nat) :
  (i < 100)%nat ->
  nth i (moment_points forces) 0
  = Rsum (map (fun f => apport f (INR i * (10 / 99))) forces).
Proof.
  intros Hi. rewrite moment_points_apport, x_points_samples, map_map.
  rewrite nth_indep with
    (d' := Rsum (map (fun f => apport f (INR 0 * (10 / 99))) forces))
    by (rewrite length_map, length_seq; exact Hi).
  rewrite (map_nth (fun i => Rsum (map (fun f => apport f (INR i * (10 / 99)))
                                       forces))).
  rewrite seq_nth by exact Hi. reflexivity.
Qed.

Lemma apport_after (f : force) (x : R) :
  match f with
  | ponctuelle p => Ponctuelle.distance p <= x
  | repartie r => Repartie.debut r <= x /\ Repartie.fin r < x
  end ->
  apport f x = moment_term f / 1000.
Proof.
  destruct f as [p|r]; cbn [apport moment_term]; intros H.
  - case_Rdec. reflexivity.
  - destruct H. do 2 case_Rdec. lra.
Qed.

(** X5. When every point load is at a distance of at most 10 and every
    distributed load ends before 10, the last of the 100 samples of the
    diagram is at position 10 and its moment is the total moment, in
    kN.m. *)
Theorem moment_diagram_ends_at_total (forces : list force) :
  Forall (fun f =>
            match f with
            | ponctuelle p => Ponctuelle.distance p <= 10
            | repartie r => Repartie.debut r <= 10 /\ Repartie.fin r < 10
            end) forces ->
  nth_error (moment_diagram forces) 99
  = Some (10, total_moment forces / 1000).
Proof.
  intros H. rewrite moment_diagram_apport, nth_error_map.
  change (nth_error (seq 0 100) 99) with (Some 99%nat). cbn [option_map].
  rewrite (INR_IZR_INZ 99). change (Z.of_nat 99) with 99%Z.
  replace (99 * (10 / 99)) with 10 by lra.
  do 2 f_equal. rewrite total_moment_terms.
  induction H as [|f l Hf _ IH]; cbn [map]; rewrite ?Rsum_cons.
  - cbn. lra.
  - rewrite IH, (apport_after f 10 Hf). lra.
Qed.

Lemma moment_diagram_ends_at_total_witness :
  let forces := [ponctuelle (Ponctuelle.mk 10 2 90 20000 10000);
                 repartie (Repartie.mk 5 0 4 4 20 40)] in
  nth_error (moment_diagram forces) 99
  = Some (10, total_moment forces / 1000).
Proof.
  intros forces. apply (moment_diagram_ends_at_total forces).
  repeat constructor; cbn; lra.
Defined.

Lemma apport_monotone (f : force) (x y : R) :
  bien_forme f -> dans_les_bornes f -> x <= y ->
  apport f x <= apport f y.
Proof.
  destruct f as [p|r]; cbn [apport bien_forme dans_les_bornes].
  - intros (Hv & Hf & Hm) (Hd & Ha) Hxy.
    pose proof (sin_radians_nonneg _ Ha) as Hs.
    assert (0 <= Ponctuelle.force_perp p) by (rewrite Hf; nra).
    assert (0 <= Ponctuelle.moment p) by (rewrite Hm; nra).
    repeat case_Rdec; lra.
  - intros (Hv & He & Hl & Hf & Hm) Hd Hxy.
    set (L := Repartie.fin r - Repartie.debut r) in *.
    assert (HL : 0 < L) by (unfold L; lra).
    assert (HM : Repartie.moment_equiv r
                 = Repartie.valeur r * L * Repartie.debut r
                   + Repartie.valeur r * L ^ 2 / 2)
      by (rewrite Hm, Hf, Hl; field).
    assert (0 <= Repartie.valeur r * L * Repartie.debut r)
      by (apply Rmult_le_pos; [nra | lra]).
    assert (Hramp : forall z, Repartie.debut r <= z <= Repartie.fin r ->
              0 <= Repartie.valeur r * (z - Repartie.debut r) ^ 2 / 2
                <= Repartie.valeur r * L ^ 2 / 2).
    { intros z Hz. unfold L.
      assert (0 <= z - Repartie.debut r <= Repartie.fin r - Repartie.debut r)
        by lra.
      assert ((z - Repartie.debut r) ^ 2
              <= (Repartie.fin r - Repartie.debut r) ^ 2) by nra.
      assert (0 <= (z - Repartie.debut r) ^ 2) by nra.
      split; nra. }
    repeat case_Rdec.
    + assert ((x - Repartie.debut r) ^ 2 <= (y - Repartie.debut r) ^ 2) by nra.
      nra.
    + pose proof (Hramp x ltac:(lra)). lra.
    + lra.
    + pose proof (Hramp y ltac:(lra)). lra.
    + pose proof (Hramp (Repartie.fin r) ltac:(lra)). lra.
    + lra.
Qed.

(** X6. On a well-formed register within the ranges of the widgets, the
    moments of the diagram never decrease from one sample to a later
    one. *)
Theorem moment_points_nondecreasing (forces : list force) (i j : nat) :
  Forall bien_forme forces -> Forall dans_les_bornes forces ->
  (i <= j)%nat -> (j < 100)%nat ->
  nth i (moment_points forces) 0 <= nth j (moment_points forces) 0.
Proof.
  intros Hb Hr Hij Hj.
  rewrite !moment_points_nth by lia.
  assert (Hx : INR i * (10 / 99) <= INR j * (10 / 99)).
  { apply le_INR in Hij. lra. }
  revert Hx. generalize (INR i * (10 / 99)) (INR j * (10 / 99)).
  intros x y Hxy.
  induction forces as [|f l IH]; cbn [map]; rewrite ?Rsum_cons.
  - lra.
  - inversion Hb; inversion Hr; subst.
    pose proof (apport_monotone f x y ltac:(assumption) ltac:(assumption) Hxy).
    pose proof (IH ltac:(assumption) ltac:(assumption)). lra.
Qed.

Lemma moment_points_nondecreasing_witness :
  let forces := [ponctuelle (Ponctuelle.mk 10 2 90 20000 10000);
                 repartie (Repartie.mk 5 0 4 4 20 40)] in
  nth 10 (moment_points forces) 0 <= nth 50 (moment_points forces) 0.
Proof.
  intros forces. apply (moment_points_nondecreasing forces 10 50).
  - apply registre_exemple_bien_forme.
  - apply registre_exemple_dans_les_bornes.
  - lia.
  - lia.
Defined.

(** X7. After the end of a well-formed distributed load the diagram
    carries its equivalent moment, which is the value of the ramp at
    the end plus the equivalent force times the start: the diagram
    jumps at the end of the load unless the load starts at 0. *)
Theorem apport_jump_at_end (r : Repartie.t) (x : R) :
  bien_forme (repartie r) -> x > Repartie.fin r ->
  apport (repartie r) x
  = apport (repartie r) (Repartie.fin r)
    + Repartie.force_equiv r * Repartie.debut r.
Proof.
  cbn [bien_forme apport]. intros (Hv & He & Hl & Hf & Hm) Hx.
  repeat case_Rdec. rewrite Hm, Hf, Hl. field.
Qed.

Lemma apport_jump_at_end_witness :
  apport (repartie (Repartie.mk 5 1 4 3 15 37.5)) 6
  = apport (repartie (Repartie.mk 5 1 4 3 15 37.5)) 4 + 15 * 1.
Proof.
  apply (apport_jump_at_end (Repartie.mk 5 1 4 3 15 37.5) 6).
  - cbn. repeat split; lra.
  - cbn. lra.
Defined.

(** ** Sections: errors and closed forms *)

Lemma pydiv_zero (x y : R) : y = 0 -> pydiv x y = Raise ZeroDivisionError.
Proof.
  intros H. unfold pydiv. destruct (Req_dec_T y 0); [reflexivity|contradiction].
Qed.

Lemma pydiv_cases (x y : R) :
  (y = 0 /\ pydiv x y = Raise ZeroDivisionError)
  \/ (y <> 0 /\ pydiv x y = Ok (x / y)).
Proof.
  destruct (Req_dec_T y 0) as [H|H].
  - left. split; [exact H | apply pydiv_zero, H].
  - right. split; [exact H | apply pydiv_nonzero, H].
Qed.

(** X8. [calculate_section_properties] raises [UnboundLocalError]
    exactly when the section type is none of the three names, whatever
    the dimensions; it raises [ZeroDivisionError] for a rectangle or an
    I section of height 0 and for a circle of width 0, whatever the
    other dimension. *)
Theorem calculate_section_properties_errors (w h : R) (t : string) :
  (calculate_section_properties w h t = Raise (UnboundLocalError "area")
   <-> t <> "rectangulaire" /\ t <> "circulaire" /\ t <> "en I")
  /\ calculate_section_properties w 0 "rectangulaire"
     = Raise ZeroDivisionError
  /\ calculate_section_properties w 0 "en I" = Raise ZeroDivisionError
  /\ calculate_section_properties 0 h "circulaire"
     = Raise ZeroDivisionError.
Proof.
  split.
  - unfold calculate_section_properties.
    destruct (String.eqb_spec t "rectangulaire") as [-> | Hr];
      [destruct (pydiv_cases (w * h ^ 3 / 12) (h / 2)) as [[Hz ->] | [Hz ->]]|
       destruct (String.eqb_spec t "circulaire") as [-> | Hc];
       [destruct (pydiv_cases (PI * w ^ 4 / 64) (w / 2))
          as [[Hz ->] | [Hz ->]]|
        destruct (String.eqb_spec t "en I") as [-> | Hi];
        [destruct (pydiv_cases (w * h ^ 3 / 12 * 0.7) (h / 2))
           as [[Hz ->] | [Hz ->]]|]]];
      cbn [bind]; (split; intros H); try discriminate H;
      repeat match goal with
             | H : _ /\ _ |- _ => destruct H
             end;
      try congruence; auto.
  - unfold calculate_section_properties.
    cbn [String.eqb Ascii.eqb Bool.eqb].
    rewrite !pydiv_zero by lra. repeat split; reflexivity.
Qed.

(** X9. For positive dimensions the section modulus is, for a
    rectangle, the [b * h^2 / 6] that the formulas tab displays; for a
    circle of diameter [d], [PI * d^3 / 32]; for the I section, 0.7
    times the modulus of the rectangle. *)
Theorem section_modulus_closed_form (w h : R) :
  w > 0 -> h > 0 ->
  calculate_section_properties w h "rectangulaire"
  = Ok (w * h, w * h ^ 3 / 12, w * h ^ 2 / 6)
  /\ calculate_section_properties w h "circulaire"
     = Ok (PI * w ^ 2 / 4, PI * w ^ 4 / 64, PI * w ^ 3 / 32)
  /\ calculate_section_properties w h "en I"
     = Ok (w * h * 0.8, w * h ^ 3 / 12 * 0.7, 0.7 * (w * h ^ 2 / 6)).
Proof.
  intros Hw Hh. unfold calculate_section_properties.
  cbn [String.eqb Ascii.eqb Bool.eqb].
  rewrite !pydiv_nonzero by lra. cbn [bind].
  repeat split; do 2 f_equal; field; lra.
Qed.

Lemma section_modulus_closed_form_witness :
  calculate_section_properties 0.3 0.5 "rectangulaire"
  = Ok (0.3 * 0.5, 0.3 * 0.5 ^ 3 / 12, 0.3 * 0.5 ^ 2 / 6)
  /\ calculate_section_properties 0.3 0.5 "circulaire"
     = Ok (PI * 0.3 ^ 2 / 4, PI * 0.3 ^ 4 / 64, PI * 0.3 ^ 3 / 32)
  /\ calculate_section_properties 0.3 0.5 "en I"
     = Ok (0.3 * 0.5 * 0.8, 0.3 * 0.5 ^ 3 / 12 * 0.7,
           0.7 * (0.3 * 0.5 ^ 2 / 6)).
Proof.
  apply (section_modulus_closed_form 0.3 0.5); lra.
Defined.

(** ** The stress check *)

Lemma analyse_rectangulaire (f : force) (l : list force)
    (w h : R) (material_props : string) :
  w > 0 -> h > 0 -> total_moment (f :: l) > 0 ->
  analyse_des_contraintes (f :: l) w h "rectangulaire" material_props
  = (c_adm <- contrainte_adm material_props ;;
     Ok (contrainte (total_moment (f :: l) / (w * h ^ 2 / 6)) c_adm
           (if Rle_dec (total_moment (f :: l) / (w * h ^ 2 / 6)) c_adm
            then true else false))).
Proof.
  intros Hw Hh HM. unfold analyse_des_contraintes.
  destruct (section_modulus_closed_form w h Hw Hh) as (-> & _).
  cbn [bind]. case_Rdec.
  assert (0 < w * h ^ 2) by (apply Rmult_lt_0_compat; [lra | nra]).
  rewrite pydiv_nonzero by lra. reflexivity.
Qed.

(** X10. A rectangular section that is accepted stays accepted when
    its height grows: with the same register, width and material, the
    stress at a height [h' >= h] is at most the stress at [h], and the
    verdict is still "admise". *)
Theorem admise_monotone_hauteur (forces : list force)
    (w h h' c adm : R) (material_props : string) :
  w > 0 -> h > 0 -> h <= h' ->
  analyse_des_contraintes forces w h "rectangulaire" material_props
  = Ok (contrainte c adm true) ->
  exists c',
    analyse_des_contraintes forces w h' "rectangulaire" material_props
    = Ok (contrainte c' adm true)
    /\ c' <= c.
Proof.
  intros Hw Hh Hh' H.
  destruct forces as [|f l]; [discriminate H|].
  destruct (Rgt_dec (total_moment (f :: l)) 0) as [HM|HM].
  - rewrite analyse_rectangulaire in * by lra.
    destruct (contrainte_adm material_props) as [a|e]; [|discriminate H].
    cbn [bind] in *.
    set (M := total_moment (f :: l)) in *.
    assert (Hle : M / (w * h' ^ 2 / 6) <= M / (w * h ^ 2 / 6)).
    { assert (0 < h ^ 2) by nra.
      assert (h ^ 2 <= h' ^ 2) by nra.
      assert (0 < w * h ^ 2) by (apply Rmult_lt_0_compat; lra).
      assert (w * h ^ 2 <= w * h' ^ 2)
        by (apply Rmult_le_compat_l; lra).
      apply Rmult_le_compat_l; [lra|].
      apply Rinv_le_contravar; lra. }
    destruct (Rle_dec (M / (w * h ^ 2 / 6)) a) as [Hc|Hc];
      [|discriminate H].
    injection H as <- <-.
    exists (M / (w * h' ^ 2 / 6)). split; [|exact Hle].
    case_Rdec. reflexivity.
  - exfalso. unfold analyse_des_contraintes in H.
    destruct (section_modulus_closed_form w h Hw Hh) as (Hs & _).
    rewrite Hs in H. cbn [bind] in H.
    destruct (Rgt_dec (total_moment (f :: l)) 0); [contradiction|discriminate H].
Qed.

Lemma admise_monotone_hauteur_witness :
  let forces := [ponctuelle (Ponctuelle.mk 10 2 90 20000 10000);
                 repartie (Repartie.mk 5 0 4 4 20 40)] in
  exists c',
    analyse_des_contraintes forces 0.3 0.6 "rectangulaire" "Acier S235"
    = Ok (contrainte c' (235e6 / 1.15) true)
    /\ c' <= total_moment forces / (0.3 * 0.5 ^ 2 / 6).
Proof.
  intros forces.
  apply (admise_monotone_hauteur forces 0.3 0.5 0.6
           (total_moment forces / (0.3 * 0.5 ^ 2 / 6)) (235e6 / 1.15)
           "Acier S235"); try lra.
  assert (HM : total_moment forces = 60000).
  { rewrite total_moment_terms. cbn. lra. }
  unfold forces in *. rewrite analyse_rectangulaire by lra.
  change (contrainte_adm "Acier S235") with (Ok (235e6 / 1.15)).
  cbn [bind]. rewrite HM. case_Rdec. reflexivity.
Defined.

(** X11. With the wood of the catalog, a non-empty register and a
    rectangular section whose width and height are between the minimum
    of their widgets, 0.01, and 1e50, the stress check raises
    [KeyError] on "fc" exactly when the total moment is positive;
    otherwise no stress is shown and nothing is raised. *)
Theorem analyse_des_contraintes_bois (forces : list force) (w h : R) :
  forces <> [] -> 0.01 <= w <= 1e50 -> 0.01 <= h <= 1e50 ->
  analyse_des_contraintes forces w h "rectangulaire" "Bois Classe C24"
  = if Rgt_dec (total_moment forces) 0
    then Raise (KeyError "fc")
    else Ok sans_contrainte.
Proof.
  intros Hne [Hw _] [Hh _]. destruct forces as [|f l]; [contradiction|].
  destruct (Rgt_dec (total_moment (f :: l)) 0) as [HM|HM].
  - rewrite analyse_rectangulaire by lra. reflexivity.
  - unfold analyse_des_contraintes.
    destruct (section_modulus_closed_form w h ltac:(lra) ltac:(lra))
      as (-> & _).
    cbn [bind]. destruct (Rgt_dec (total_moment (f :: l)) 0);
      [contradiction | reflexivity].
Qed.

Lemma analyse_des_contraintes_bois_witness :
  let forces := [ponctuelle (Ponctuelle.mk 10 2 90 20000 10000)] in
  analyse_des_contraintes forces 0.3 0.5 "rectangulaire" "Bois Classe C24"
  = if Rgt_dec (total_moment forces) 0
    then Raise (KeyError "fc")
    else Ok sans_contrainte.
Proof.
  intros forces. apply (analyse_des_contraintes_bois forces 0.3 0.5).
  - discriminate.
  - lra.
  - lra.
Defined.

(** ** The deflection block *)

Lemma getitem_missing {V : Type} (d : list (string * V)) (k : string) :
  ~ In k (map fst d) -> getitem d k = Raise (KeyError k).
Proof.
  induction d as [|[k' v] d IH]; cbn [getitem map fst In]; intros H.
  - reflexivity.
  - destruct (String.eqb_spec k' k) as [->|Hk].
    + exfalso. apply H. left. reflexivity.
    + apply IH. intros Hin. apply H. right. exact Hin.
Qed.

Lemma getitem_In {V : Type} (d : list (string * V)) (k : string) (v : V) :
  getitem d k = Ok v -> In (k, v) d.
Proof.
  induction d as [|[k' v'] d IH]; cbn [getitem In]; intros H.
  - discriminate H.
  - destruct (String.eqb_spec k' k) as [->|Hk].
    + injection H as ->. left. reflexivity.
    + right. apply IH, H.
Qed.

Lemma materials_getitem (name : string) (props : list (string * R)) :
  In (name, props) materials -> getitem materials name = Ok props.
Proof.
  unfold materials. cbn [In].
  intros H; repeat (destruct H as [H|H]); try contradiction;
    injection H as <- <-; reflexivity.
Qed.

Lemma calcul_de_la_fleche_catalogue (forces : list force)
    (longueur_poutre : R) (name : string) (props : list (string * R)) :
  In (name, props) materials ->
  exists E : R,
    getitem props "E" = Ok E /\ E > 0
    /\ calcul_de_la_fleche forces longueur_poutre name
       = Ok (match forces with
             | [] => None
             | _ :: _ =>
                 if Rgt_dec longueur_poutre 0
                 then Some (Rsum (map (fun p => Ponctuelle.valeur p * 1000
                                                * longueur_poutre ^ 3
                                                / (48 * E * I_est))
                                      (ponctuelles forces)),
                            longueur_poutre / 500)
                 else None
             end).
Proof.
  intros Hin. destruct (materials_E_positive name props Hin) as (E & HE & Hpos).
  exists E. split; [exact HE|]. split; [exact Hpos|].
  unfold calcul_de_la_fleche.
  rewrite (materials_getitem name props Hin). cbn [bind].
  rewrite HE. cbn [bind].
  destruct forces as [|f l]; [reflexivity|].
  destruct (Rgt_dec longueur_poutre 0); [|reflexivity].
  unfold fleche_max. rewrite fleche_loop_acc by exact Hpos.
  cbn [bind]. do 3 f_equal. lra.
Qed.

(** X12. For every material of the catalog and every length of at
    most 1e100 the deflection block raises nothing: on an empty
    register or a length that is not positive it shows nothing, and
    otherwise it shows the sum of the deflections of the point loads,
    computed with the modulus [E] of the material, and the allowable
    deflection [L / 500]. *)
Theorem calcul_de_la_fleche_on_catalog (forces : list force)
    (longueur_poutre : R) (name : string) (props : list (string * R)) :
  In (name, props) materials ->
  longueur_poutre <= 1e100 ->
  exists E : R,
    getitem props "E" = Ok E /\ E > 0
    /\ calcul_de_la_fleche forces longueur_poutre name
       = Ok (match forces with
             | [] => None
             | _ :: _ =>
                 if Rgt_dec longueur_poutre 0
                 then Some (Rsum (map (fun p => Ponctuelle.valeur p * 1000
                                                * longueur_poutre ^ 3
                                                / (48 * E * I_est))
                                      (ponctuelles forces)),
                            longueur_poutre / 500)
                 else None
             end).
Proof. intros Hin _. apply calcul_de_la_fleche_catalogue, Hin. Qed.

Lemma calcul_de_la_fleche_on_catalog_witness :
  let forces := [ponctuelle (Ponctuelle.mk 10 2 90 20000 10000);
                 repartie (Repartie.mk 5 0 4 4 20 40)] in
  exists E : R,
    getitem [("E", 210e9); ("fy", 235e6); ("weight", 7850)] "E" = Ok E
    /\ E > 0
    /\ calcul_de_la_fleche forces 6 "Acier S235"
       = Ok (if Rgt_dec 6 0
             then Some (Rsum (map (fun p => Ponctuelle.valeur p * 1000
                                            * 6 ^ 3 / (48 * E * I_est))
                                  (ponctuelles forces)),
                        6 / 500)
             else None).
Proof.
  intros forces.
  apply (calcul_de_la_fleche_on_catalog forces 6 "Acier S235"
           [("E", 210e9); ("fy", 235e6); ("weight", 7850)]).
  - unfold materials. cbn [In]. right. right. left. reflexivity.
  - lra.
Defined.

(** X13. A material name that is not a key of the catalog makes both
    the allowable stress and the deflection block raise [KeyError] on
    that name. *)
Theorem unknown_material_KeyError (name : string)
    (forces : list force) (longueur_poutre : R) :
  ~ In name (map fst materials) ->
  contrainte_adm name = Raise (KeyError name)
  /\ calcul_de_la_fleche forces longueur_poutre name
     = Raise (KeyError name).
Proof.
  intros H. unfold contrainte_adm, calcul_de_la_fleche.
  rewrite (getitem_missing materials name H).
  destruct (contains "Acier" name); split; reflexivity.
Qed.

Lemma unknown_material_KeyError_witness :
  contrainte_adm "Aluminium" = Raise (KeyError "Aluminium")
  /\ calcul_de_la_fleche [] 6 "Aluminium" = Raise (KeyError "Aluminium").
Proof.
  apply (unknown_material_KeyError "Aluminium" [] 6).
  cbn. intros H.
  repeat (destruct H as [H|H]; [discriminate H|]). exact H.
Defined.

(** X14. A non-empty register that holds distributed loads only has a
    computed deflection of 0 for every catalog material and positive
    length, whatever the intensities: it is within the allowable
    deflection [L / 500]. *)
Theorem fleche_distributed_only (forces : list force)
    (longueur_poutre : R) (name : string) (props : list (string * R)) :
  In (name, props) materials ->
  forces <> [] -> ponctuelles forces = [] -> longueur_poutre > 0 ->
  calcul_de_la_fleche forces longueur_poutre name
  = Ok (Some (0, longueur_poutre / 500))
  /\ 0 <= longueur_poutre / 500.
Proof.
  intros Hin Hne Hp HL.
  destruct (calcul_de_la_fleche_catalogue forces longueur_poutre name props Hin)
    as (E & _ & _ & ->).
  destruct forces as [|f l]; [contradiction|].
  case_Rdec. rewrite Hp. cbn [map Rsum fold_right].
  split; [reflexivity | lra].
Qed.

Lemma fleche_distributed_only_witness :
  calcul_de_la_fleche [repartie (Repartie.mk 5 0 4 4 20 40)] 6 "Acier S235"
  = Ok (Some (0, 6 / 500))
  /\ 0 <= 6 / 500.
Proof.
  apply (fleche_distributed_only [repartie (Repartie.mk 5 0 4 4 20 40)] 6
           "Acier S235" [("E", 210e9); ("fy", 235e6); ("weight", 7850)]).
  - unfold materials. cbn [In]. right. right. left. reflexivity.
  - discriminate.
  - reflexivity.
  - lra.
Defined.

(** ** The safety coefficient on a well-formed register *)

Lemma bien_forme_valeur_pos (f : force) : bien_forme f -> valeur f > 0.
Proof.
  destruct f as [p|r]; cbn; intros H; apply H.
Qed.

Lemma charge_appliquee_pos (forces : list force) :
  Forall bien_forme forces -> forces <> [] -> charge_appliquee forces > 0.
Proof.
  intros Hb Hne. rewrite charge_appliquee_sum.
  destruct Hb as [|f l Hf Hl]; [contradiction|].
  cbn [map]. rewrite Rsum_cons.
  pose proof (bien_forme_valeur_pos f Hf).
  assert (0 <= Rsum (map valeur l)).
  { apply Rsum_nonneg, Forall_map. rewrite Forall_forall in *.
    intros g Hg. apply Rlt_le, bien_forme_valeur_pos, Hl, Hg. }
  lra.
Qed.

Lemma coeff_securite_bien_forme (charge_ultime : R) (forces : list force) :
  Forall bien_forme forces -> forces <> [] ->
  coeff_securite charge_ultime forces
  = Some (finite (charge_ultime / charge_appliquee forces)).
Proof.
  intros Hb Hne. pose proof (charge_appliquee_pos forces Hb Hne) as Hpos.
  destruct forces as [|f l]; [contradiction|].
  unfold coeff_securite. cbv zeta. case_Rdec. reflexivity.
Qed.

(** X15. On a non-empty well-formed register the applied load is
    positive, so the safety coefficient is the finite quotient of the
    ultimate load by the applied load: the infinite coefficient of the
    code is never produced. *)
Theorem coeff_securite_finite (charge_ultime : R) (forces : list force) :
  Forall bien_forme forces -> forces <> [] ->
  charge_appliquee forces > 0
  /\ coeff_securite charge_ultime forces
     = Some (finite (charge_ultime / charge_appliquee forces)).
Proof.
  intros Hb Hne. split.
  - apply charge_appliquee_pos; assumption.
  - apply coeff_securite_bien_forme; assumption.
Qed.

Lemma coeff_securite_finite_witness :
  let forces := [ponctuelle (Ponctuelle.mk 10 2 90 20000 10000);
                 repartie (Repartie.mk 5 0 4 4 20 40)] in
  charge_appliquee forces > 0
  /\ coeff_securite 50 forces
     = Some (finite (50 / charge_appliquee forces)).
Proof.
  intros forces. apply (coeff_securite_finite 50 forces).
  - apply registre_exemple_bien_forme.
  - discriminate.
Defined.

(** X16. Appending a well-formed entry to a non-empty well-formed
    register does not raise the safety coefficient, for an ultimate
    load that is not negative. *)
Theorem coeff_securite_decreases (charge_ultime : R)
    (forces : list force) (e : force) :
  Forall bien_forme forces -> forces <> [] -> bien_forme e ->
  0 <= charge_ultime ->
  exists c c',
    coeff_securite charge_ultime forces = Some (finite c)
    /\ coeff_securite charge_ultime (forces ++ [e]) = Some (finite c')
    /\ c' <= c.
Proof.
  intros Hb Hne He Hcu.
  assert (Hb' : Forall bien_forme (forces ++ [e]))
    by (apply Forall_app; split; [exact Hb | repeat constructor; exact He]).
  assert (Hne' : forces ++ [e] <> []) by (destruct forces; discriminate).
  exists (charge_ultime / charge_appliquee forces),
         (charge_ultime / charge_appliquee (forces ++ [e])).
  rewrite !coeff_securite_bien_forme by assumption.
  split; [reflexivity|]. split; [reflexivity|].
  pose proof (charge_appliquee_pos forces Hb Hne) as Hpos.
  pose proof (bien_forme_valeur_pos e He) as Hv.
  assert (Hsum : charge_appliquee (forces ++ [e])
                 = charge_appliquee forces + valeur e).
  { rewrite !charge_appliquee_sum, map_app, Rsum_app. cbn. lra. }
  rewrite Hsum. apply Rmult_le_compat_l; [exact Hcu|].
  apply Rinv_le_contravar; lra.
Qed.

Lemma coeff_securite_decreases_witness :
  exists c c',
    coeff_securite 50 [ponctuelle (Ponctuelle.mk 10 2 90 20000 10000)]
    = Some (finite c)
    /\ coeff_securite 50
         ([ponctuelle (Ponctuelle.mk 10 2 90 20000 10000)]
          ++ [repartie (Repartie.mk 5 0 4 4 20 40)])
       = Some (finite c')
    /\ c' <= c.
Proof.
  apply (coeff_securite_decreases 50
           [ponctuelle (Ponctuelle.mk 10 2 90 20000 10000)]
           (repartie (Repartie.mk 5 0 4 4 20 40))).
  - repeat constructor; cbn; try rewrite radians_90, sin_PI2; lra.
  - discriminate.
  - cbn. repeat split; lra.
  - lra.
Defined.

(** X17. On a non-empty well-formed register, and away from the two
    thresholds by a margin of one part in a billion (more than the
    rounding of the sum and of the quotient can move), the verdict on
    stability is "excellente" when the ultimate load is at least twice
    the applied load, "bonne" when it is between 1.5 times and twice
    the applied load, and "insuffisante" when it is below 1.5 times
    the applied load. *)
Theorem analyse_de_stabilite_thresholds (charge_ultime : R)
    (forces : list force) :
  Forall bien_forme forces -> forces <> [] ->
  (charge_ultime >= (2 + 1e-9) * charge_appliquee forces ->
   analyse_de_stabilite charge_ultime forces = Some EXCELLENTE)
  /\ ((1.5 + 1e-9) * charge_appliquee forces <= charge_ultime
                                              <= (2 - 1e-9) * charge_appliquee forces ->
      analyse_de_stabilite charge_ultime forces = Some BONNE)
  /\ (charge_ultime <= (1.5 - 1e-9) * charge_appliquee forces ->
      analyse_de_stabilite charge_ultime forces = Some INSUFFISANTE).
Proof.
  intros Hb Hne. pose proof (charge_appliquee_pos forces Hb Hne) as Hpos.
  unfold analyse_de_stabilite.
  rewrite coeff_securite_bien_forme by assumption.
  cbn [option_map]. unfold classer, xge.
  set (ca := charge_appliquee forces) in *.
  assert (Hq : forall k, charge_ultime / ca >= k <-> charge_ultime >= k * ca).
  { intros k. split; intros H.
    - apply Rle_ge. apply Rge_le in H.
      apply (Rmult_le_compat_r ca) in H; [|lra].
      unfold Rdiv in H. rewrite Rmult_assoc, Rinv_l, Rmult_1_r in H; lra.
    - apply Rle_ge. apply Rge_le in H.
      apply (Rmult_le_reg_r ca); [lra|].
      unfold Rdiv. rewrite Rmult_assoc, Rinv_l, Rmult_1_r; lra. }
  destruct (Rge_dec (charge_ultime / ca) 2.0) as [G2|G2];
    [|destruct (Rge_dec (charge_ultime / ca) 1.5) as [G15|G15]];
    repeat split; intros H; try reflexivity; exfalso.
  - apply Hq in G2. lra.
  - apply Hq in G2. lra.
  - apply G2, Hq. lra.
  - apply Hq in G15. lra.
  - apply G2, Hq. lra.
  - apply G15, Hq. lra.
Qed.

Lemma analyse_de_stabilite_thresholds_witness :
  let forces := [ponctuelle (Ponctuelle.mk 10 2 90 20000 10000);
                 repartie (Repartie.mk 5 0 4 4 20 40)] in
  (50 >= (2 + 1e-9) * charge_appliquee forces ->
   analyse_de_stabilite 50 forces = Some EXCELLENTE)
  /\ ((1.5 + 1e-9) * charge_appliquee forces <= 50
                                              <= (2 - 1e-9) * charge_appliquee forces ->
      analyse_de_stabilite 50 forces = Some BONNE)
  /\ (50 <= (1.5 - 1e-9) * charge_appliquee forces ->
      analyse_de_stabilite 50 forces = Some INSUFFISANTE).
Proof.
  intros forces. apply (analyse_de_stabilite_thresholds 50 forces).
  - apply registre_exemple_bien_forme.
  - discriminate.
Defined.

(** ** The interaction point and the export *)

(** X18. On a non-empty register the moment plotted on the interaction
    diagram is the sum of the moments of the point loads only, in kN.m:
    it is the total moment less the moments of the distributed loads,
    which have no key 'moment'. *)
Theorem M_calc_point_loads_only (forces : list force) :
  forces <> [] ->
  M_calc forces
  = Some (Rsum (map Ponctuelle.moment (ponctuelles forces)) / 1000)
  /\ M_calc forces
     = Some ((total_moment forces
              - Rsum (map Repartie.moment_equiv (reparties forces)) * 1000)
             / 1000).
Proof.
  intros Hne.
  assert (H : fold_left Rplus (map (fun f => get_moment f 0) forces) 0
              = Rsum (map Ponctuelle.moment (ponctuelles forces))).
  { rewrite fold_left_Rplus.
    induction forces as [|[p|r] l IH]; cbn [map ponctuelles get_moment];
      rewrite ?Rsum_cons.
    - cbn. lra.
    - destruct l; [cbn; lra|]. specialize (IH ltac:(discriminate)). lra.
    - destruct l; [cbn; lra|]. specialize (IH ltac:(discriminate)). lra. }
  destruct forces as [|f l]; [contradiction|].
  unfold M_calc. rewrite H. split; [reflexivity|].
  rewrite total_moment_terms, moment_terms_split. do 2 f_equal. lra.
Qed.

Lemma M_calc_point_loads_only_witness :
  let forces := [ponctuelle (Ponctuelle.mk 10 2 90 20000 10000);
                 repartie (Repartie.mk 5 0 4 4 20 40)] in
  M_calc forces
  = Some (Rsum (map Ponctuelle.moment (ponctuelles forces)) / 1000)
  /\ M_calc forces
     = Some ((total_moment forces
              - Rsum (map Repartie.moment_equiv (reparties forces)) * 1000)
             / 1000).
Proof.
  intros forces. apply (M_calc_point_loads_only forces). discriminate.
Defined.

Lemma colonne_moment_export_row (f : force) :
  colonne_moment (export_row f) = moment_term f / 1000.
Proof.
  destruct f as [p|r]; unfold colonne_moment, export_row;
    cbn [getitem String.eqb Ascii.eqb Bool.eqb moment_term]; lra.
Qed.

(** X19. The export has one row per entry of the register, and all its
    moments are in kN.m: the moments written in the rows add up to the
    total moment divided by 1000. *)
Theorem force_data_moments (forces : list force) :
  List.length (force_data forces) = List.length forces
  /\ Rsum (map colonne_moment (force_data forces))
     = total_moment forces / 1000.
Proof.
  unfold force_data. split; [apply length_map|].
  rewrite total_moment_terms, map_map.
  induction forces as [|f l IH]; cbn [map]; rewrite ?Rsum_cons.
  - cbn. lra.
  - rewrite IH, colonne_moment_export_row. lra.
Qed.

(** ** The substring test *)

Lemma prefix_append (sub s : string) :
  String.prefix sub s = true <-> exists post, s = (sub ++ post)%string.
Proof.
  revert s. induction sub as [|a sub IH]; intros s.
  - split; [intros _; exists s; reflexivity | destruct s; reflexivity].
  - destruct s as [|b s]; cbn [String.prefix].
    + split; [discriminate | intros [post H]; discriminate H].
    + destruct (Ascii.ascii_dec a b) as [->|Hab].
      * rewrite IH. split; intros [post H]; exists post.
        -- cbn. now rewrite H.
        -- cbn in H. now injection H.
      * split; [discriminate|]. intros [post H]. cbn in H.
        injection H as H _. congruence.
Qed.

(** X20. The test of line 357 holds exactly for the names that have
    the word as a substring: [contains sub s] is true if and only if
    [s] is some prefix, then [sub], then some suffix. *)
Theorem contains_substring (sub s : string) :
  contains sub s = true
  <-> exists pre post, s = (pre ++ sub ++ post)%string.
Proof.
  split.
  - induction s as [|c s IH]; cbn [contains]; intros H;
      apply orb_true_iff in H; destruct H as [H|H].
    + apply prefix_append in H. destruct H as [post ->].
      exists EmptyString, post. reflexivity.
    + discriminate H.
    + apply prefix_append in H. destruct H as [post ->].
      exists EmptyString, post. reflexivity.
    + destruct (IH H) as (pre & post & ->).
      exists (String c pre), post. reflexivity.
  - intros (pre & post & ->).
    induction pre as [|c pre IH].
    + cbn [String.append].
      assert (Hp : String.prefix sub (sub ++ post) = true)
        by (apply prefix_append; exists post; reflexivity).
      destruct (sub ++ post)%string; cbn [contains]; now rewrite Hp.
    + cbn [String.append contains]. rewrite IH. apply orb_true_r.
Qed.

(** ** More on point loads *)

(** X21. For a force and a distance that are not negative and an angle
    in [[0, 180]], the perpendicular force is between 0 and the force
    and the moment is between 0 and force times distance. *)
Theorem calculate_moment_force_bounds (force distance angle : R) :
  0 <= force -> 0 <= distance -> 0 <= angle <= 180 ->
  0 <= snd (calculate_moment_force force distance angle) <= force
  /\ 0 <= fst (calculate_moment_force force distance angle)
       <= force * distance.
Proof.
  intros Hf Hd Ha. unfold calculate_moment_force. cbn [fst snd].
  pose proof (sin_radians_nonneg angle Ha) as Hs0.
  pose proof (SIN_bound (radians angle)) as [_ Hs1].
  assert (0 <= force * sin (radians angle) <= force) by nra.
  repeat split; try nra.
Qed.

Lemma calculate_moment_force_bounds_witness :
  0 <= snd (calculate_moment_force 10 2 30) <= 10
  /\ 0 <= fst (calculate_moment_force 10 2 30) <= 10 * 2.
Proof.
  apply (calculate_moment_force_bounds 10 2 30); lra.
Defined.

(** X22. The point-load form converts the typed kN to N before the
    computation and the moment back to kN.m for its message: the moment
    it shows is the moment of the typed value itself. *)
Theorem force_input_form_message
    (forces : list force) (force_value distance angle : R) :
  force_value > 0 ->
  snd (force_input_form forces true force_value distance angle)
  = [success_force
       (fst (calculate_moment_force force_value distance angle))].
Proof.
  intros H. rewrite force_input_form_valid by exact H.
  unfold calculate_moment_force. cbn [fst snd]. do 2 f_equal. field.
Qed.

Lemma force_input_form_message_witness :
  snd (force_input_form [] true 10 2 90)
  = [success_force (fst (calculate_moment_force 10 2 90))].
Proof.
  apply (force_input_form_message [] 10 2 90). lra.
Defined.

(** ** Order of the submissions and of the entries *)







(** X25. On a well-formed register within the ranges of the widgets the
    diagram starts from 0: the moment of the first sample, at position
    0, is 0. *)
Theorem moment_diagram_starts_at_zero (forces : list force) :
  Forall bien_forme forces -> Forall dans_les_bornes forces ->
  nth_error (moment_diagram forces) 0 = Some (0, 0).
Proof.
  intros Hb Hr. rewrite moment_diagram_apport.
  cbn [seq map nth_error INR]. rewrite Rmult_0_l. do 2 f_equal.
  induction forces as [|f l IH]; cbn [map]; rewrite ?Rsum_cons.
  - reflexivity.
  - inversion Hb as [|? ? Hf Hl]; inversion Hr as [|? ? Hf' Hl']; subst.
    rewrite (IH Hl Hl'). rewrite Rplus_0_r.
    destruct f as [p|r]; cbn [apport bien_forme dans_les_bornes] in *.
    + destruct Hf as (_ & _ & Hm). case_Rdec; [|reflexivity].
      rewrite Hm. replace (Ponctuelle.distance p) with 0 by lra. lra.
    + destruct Hf as (_ & He & _). repeat case_Rdec; try reflexivity.
      replace (Repartie.debut r) with 0 by lra. lra.
Qed.

Lemma moment_diagram_starts_at_zero_witness :
  nth_error
    (moment_diagram [ponctuelle (Ponctuelle.mk 10 2 90 20000 10000);
                     repartie (Repartie.mk 5 0 4 4 20 40)]) 0
  = Some (0, 0).
Proof.
  apply moment_diagram_starts_at_zero.
  - apply registre_exemple_bien_forme.
  - apply registre_exemple_dans_les_bornes.
Defined.
